(** * OSS-Sensor: the queue front end and the evidence data model

    A shallow embedding of the TypeScript client of the OSS-Sensor queue
    ([frontend/src/api.ts], [QueueView.tsx], [DiffDetailView.tsx]) and of the
    records it exchanges with the scoring back end.

    JavaScript strings are sequences of code units; every operation used by
    the client ([replace] of one trailing slash, [startsWith], concatenation)
    inspects ASCII code units only, so strings are embedded as [string].
    The JavaScript type [number] is kept abstract: a section variable
    together with the operations the code applies to it. *)

From Stdlib Require Import String Ascii List Bool Arith Lia Permutation.
From Stdlib Require Import QArith Qcanon.
From Stdlib Require Import Floats.
Import ListNotations.
Open Scope string_scope.
Set Warnings "-register-all".

(** * Part I: the model *)

(** ** String primitives of the JavaScript runtime *)


(** [s.startsWith(p)]. *)
Fixpoint startsWith (s p : string) {struct p} : bool :=
  match p with
  | EmptyString => true
  | String a p' =>
      match s with
      | EmptyString => false
      | String b s' => Ascii.eqb b a && startsWith s' p'
      end
  end.

(** [s.replace(/\/$/, "")]: the pattern has no [m] flag, so [$] matches at
    the end of the input only, and [replace] with a non-global pattern
    rewrites one match. *)
Fixpoint replace_trailing_slash (s : string) : string :=
  match s with
  | EmptyString => EmptyString
  | String c rest =>
      match rest with
      | EmptyString => if Ascii.eqb c "/" then EmptyString else s
      | String _ _ => String c (replace_trailing_slash rest)
      end
  end.

(** [parts.join(sep)]. *)
Fixpoint join (sep : string) (parts : list string) : string :=
  match parts with
  | [] => ""
  | [p] => p
  | p :: rest => p ++ sep ++ join sep rest
  end.

(** What the two tests mean, stated on the characters. *)
Definition has_prefix (p s : string) : Prop := exists rest, s = p ++ rest.
Definition ends_with_slash (s : string) : Prop := exists init, s = init ++ "/".

(** ** [api.ts]: the records exchanged with the back end *)

Section Model.

Set Default Proof Using "Type".

(** The JavaScript type [number]. *)
Variable number : Type.

(** [interface EvidenceRef]; [artifact_id: string | null]. *)
Record EvidenceRef := mkEvidenceRef {
  ref_type : string;
  artifact_id : option string;
  stable_id : string
}.

(** [interface Reason]. *)
Record Reason := mkReason {
  reason : string;
  score_contribution : number;
  evidence_refs : list EvidenceRef
}.

(** [interface ScoreResult]. *)
Record ScoreResult := mkScoreResult {
  total_score : number;
  reasons : list Reason;
  diff_id : string
}.

(** [interface DiffHunk]. *)
Record DiffHunk := mkDiffHunk {
  file_path : string;
  old_start : number;
  old_count : number;
  new_start : number;
  new_count : number;
  lines : list string;
  hunk_id : string
}.

(** A value as it arrives from [r.json()]; it also stands for the fields the
    interfaces type as [unknown]. *)
Inductive JsValue :=
| JUndefined
| JNull
| JBoolean (b : bool)
| JNumber (n : number)
| JString (s : string)
| JArray (items : list JsValue)
| JObject (props : list (string * JsValue)).

(** [interface EvidenceBundle]. *)
Record EvidenceBundle := mkEvidenceBundle {
  diff_hunks : list DiffHunk;
  source_features : list JsValue;
  binary_features_from : list JsValue;
  binary_features_to : list JsValue;
  binary_diff_pairs : list JsValue;
  log_templates : list JsValue;
  log_to_binary_matches : list (string * string)
}.

(** Property access [o.k]: [undefined] when [o] has no property [k]. *)
Fixpoint lookup_prop (props : list (string * JsValue)) (k : string) : JsValue :=
  match props with
  | [] => JUndefined
  | (k', v) :: rest => if String.eqb k' k then v else lookup_prop rest k
  end.

Definition get_prop (o : JsValue) (k : string) : JsValue :=
  match o with
  | JObject props => lookup_prop props k
  | _ => JUndefined
  end.

(** [Object.keys(o)] and [k in o]. *)
Definition prop_names (o : JsValue) : list string :=
  match o with
  | JObject props => map fst props
  | _ => []
  end.

Definition has_prop (o : JsValue) (k : string) : bool :=
  existsb (String.eqb k) (prop_names o).

(** The object an [EvidenceRef] is: the interface's property names, in
    declaration order. *)
Definition EvidenceRef_object (e : EvidenceRef) : JsValue :=
  JObject [ ("ref_type", JString (ref_type e));
            ("artifact_id", match artifact_id e with
                            | Some a => JString a
                            | None => JNull
                            end);
            ("stable_id", JString (stable_id e)) ].

(** The object a [Reason] is. *)
Definition Reason_object (r : Reason) : JsValue :=
  JObject [ ("reason", JString (reason r));
            ("score_contribution", JNumber (score_contribution r));
            ("evidence_refs", JArray (map EvidenceRef_object (evidence_refs r))) ].

(** [DiffDetailView.tsx], the item rendered for one reason:
    [{r.reason} — refs: {r.evidence_refs.map((e) => e.stable_id).join(", ")}]. *)
Definition reason_item (r : Reason) : string :=
  reason r ++ " — refs: " ++ join ", " (map stable_id (evidence_refs r)).

(** ** [api.ts]: building the request URLs *)

(** [window.location.origin], read by [apiUrl]. *)
Variable origin : string.

(** [function apiUrl(apiBase, path)]. *)
Definition apiUrl (apiBase path : string) : string :=
  let full := replace_trailing_slash apiBase ++ path in
  if startsWith full "http" then full
  else origin ++ (if startsWith full "/" then full else "/" ++ full).

(** What [apiUrl] is to compute, as a relation between the two
    arguments and the result. *)
Inductive strips_one_slash : string -> string -> Prop :=
| strips_slash (t : string) : strips_one_slash (t ++ "/") t
| strips_nothing (s : string) : ~ ends_with_slash s -> strips_one_slash s s.

Inductive apiUrl_spec (apiBase path : string) : string -> Prop :=
| apiUrl_absolute (base : string) :
    strips_one_slash apiBase base ->
    has_prefix "http" (base ++ path) ->
    apiUrl_spec apiBase path (base ++ path)
| apiUrl_rooted (base : string) :
    strips_one_slash apiBase base ->
    ~ has_prefix "http" (base ++ path) ->
    has_prefix "/" (base ++ path) ->
    apiUrl_spec apiBase path (origin ++ base ++ path)
| apiUrl_relative (base : string) :
    strips_one_slash apiBase base ->
    ~ has_prefix "http" (base ++ path) ->
    ~ has_prefix "/" (base ++ path) ->
    apiUrl_spec apiBase path (origin ++ "/" ++ base ++ path).


(** What [apiUrl] puts in front of a path that begins with a slash. *)
Definition api_prefix (apiBase : string) : string :=
  let base := replace_trailing_slash apiBase in
  if startsWith base "http" then base
  else origin ++ (match base with
                  | EmptyString => base
                  | _ => if startsWith base "/" then base else "/" ++ base
                  end).

(** *** [fetchQueue] *)

(** A value of the [params] object of [fetchQueue]: the declared types are
    [string] and [number], every property is optional, and the guard of
    [fetchQueue] also expects [null]. *)
Inductive ParamValue :=
| PUndefined
| PNull
| PString (s : string)
| PNumber (n : number).

(** The [params] object, as [Object.entries] lists it: own properties in
    insertion order.  An object has one value per key. *)
Definition Params := list (string * ParamValue).

Definition well_formed_object (params : Params) : Prop := NoDup (map fst params).

(** [params[k]]: [undefined] when the key is absent. *)
Fixpoint object_get (params : Params) (k : string) : ParamValue :=
  match params with
  | [] => PUndefined
  | (k', v) :: rest => if String.eqb k' k then v else object_get rest k
  end.

(** [params.k = v]: an existing property keeps its place, a new one is added
    at the end. *)
Fixpoint object_set (params : Params) (k : string) (v : ParamValue) : Params :=
  match params with
  | [] => [(k, v)]
  | (k', v') :: rest =>
      if String.eqb k' k then (k', v) :: rest else (k', v') :: object_set rest k v
  end.

(** [v != null]: false for [null] and [undefined] only. *)
Definition loose_ne_null (v : ParamValue) : bool :=
  match v with
  | PUndefined | PNull => false
  | PString _ | PNumber _ => true
  end.

(** [v !== ""]. *)
Definition strict_ne_empty (v : ParamValue) : bool :=
  match v with
  | PString s => negb (String.eqb s "")
  | _ => true
  end.

(** The guard of [fetchQueue]: [v != null && v !== ""]. *)
Definition passes_guard (v : ParamValue) : bool := loose_ne_null v && strict_ne_empty v.

(** [Number.prototype.toString], used by [String(v)] on a number. *)
Variable Number_toString : number -> string.

(** [String(v)]. *)
Definition String_of (v : ParamValue) : string :=
  match v with
  | PUndefined => "undefined"
  | PNull => "null"
  | PString s => s
  | PNumber n => Number_toString n
  end.

(** [URLSearchParams]: an ordered list of name-value pairs. *)
Definition URLSearchParams := list (string * string).

(** [searchParams.get(name)]: the first value with that name. *)
Fixpoint searchParams_get (l : URLSearchParams) (name : string) : option string :=
  match l with
  | [] => None
  | (n, v) :: rest => if String.eqb n name then Some v else searchParams_get rest name
  end.

(** [searchParams.has(name)]. *)
Definition searchParams_has (l : URLSearchParams) (name : string) : bool :=
  existsb (fun p => String.eqb (fst p) name) l.

(** [searchParams.set(name, value)]: the first pair named [name] takes the
    value and the other pairs of that name are removed; when there is none,
    the pair is appended. *)
Fixpoint set_first (l : URLSearchParams) (name value : string) : URLSearchParams :=
  match l with
  | [] => []
  | (n, v) :: rest =>
      if String.eqb n name
      then (n, value) :: filter (fun p => negb (String.eqb (fst p) name)) rest
      else (n, v) :: set_first rest name value
  end.

Definition searchParams_set (l : URLSearchParams) (name value : string) : URLSearchParams :=
  if searchParams_has l name then set_first l name value else (l ++ [(name, value)])%list.

(** A [URL] object: what precedes the query, and the query as
    [url.searchParams] exposes it. *)
Record URL := mkURL {
  url_location : string;
  searchParams : URLSearchParams
}.

(** [new URL(s)]: the parser of the host; [None] when it throws. *)
Variable new_URL : string -> option URL.

(** The body of the [forEach] callback of [fetchQueue], on the URL it mutates. *)
Definition add_param (url : URL) (entry : string * ParamValue) : URL :=
  let (k, v) := entry in
  if passes_guard v
  then mkURL (url_location url) (searchParams_set (searchParams url) k (String_of v))
  else url.

(** [fetchQueue(apiBase, params)] up to the URL it passes to [fetch]. *)
Definition fetchQueue_url (apiBase : string) (params : Params) : option URL :=
  match new_URL (apiUrl apiBase "/queue") with
  | None => None
  | Some url => Some (fold_left add_param params url)
  end.


(** *** [QueueView.tsx] *)

(** [parseFloat] and [isNaN] of the host. *)
Variable parseFloat : string -> number.
Variable isNaN : number -> bool.

(** Truthiness of a string: every string but the empty one. *)
Definition truthy (s : string) : bool := negb (String.eqb s "").

(** The [params] object the effect of [QueueView] builds from its three
    filter inputs. *)
Definition QueueView_params (filterComponent filterState filterMinScore : string) : Params :=
  let params : Params := [] in
  let params := if truthy filterComponent
                then object_set params "component" (PString filterComponent) else params in
  let params := if truthy filterState
                then object_set params "state" (PString filterState) else params in
  let min := parseFloat filterMinScore in
  if negb (isNaN min) then object_set params "min_score" (PNumber min) else params.

(** The URL [QueueView] requests. *)
Definition QueueView_url (apiBase filterComponent filterState filterMinScore : string) : option URL :=
  fetchQueue_url apiBase (QueueView_params filterComponent filterState filterMinScore).

(** The text React renders for a child [{v}]: a string as it is, a number
    through [toString], nothing for [undefined], [null] and booleans, the
    items of an array one after the other; an object is not a valid child
    and React throws ([None]). *)
Fixpoint child_text (v : JsValue) : option string :=
  match v with
  | JString s => Some s
  | JNumber n => Some (Number_toString n)
  | JUndefined | JNull | JBoolean _ => Some ""
  | JArray children =>
      (fix children_text (l : list JsValue) : option string :=
         match l with
         | [] => Some ""
         | child :: rest =>
             match child_text child, children_text rest with
             | Some a, Some b => Some (a ++ b)
             | _, _ => None
             end
         end) children
  | JObject _ => None
  end.

(** [DiffDetailView.tsx], the explanation of a reason as the view reads it
    from the object at run time: [{r.reason}]. *)
Definition rendered_explanation (r : JsValue) : option string :=
  child_text (get_prop r "reason").

(** *** [fetchDiff], [fetchReports], [updateTriage] *)

(** What is handed to [fetch]: the URL and the [init] options ([GET] and no
    body when the call gives none). *)
Record Request := mkRequest {
  req_url : string;
  req_method : string;
  req_headers : list (string * string);
  req_body : option URLSearchParams
}.

(** [fetchDiff(apiBase, diffId)], up to its call of [fetch]. *)
Definition fetchDiff_request (apiBase diffId : string) : Request :=
  mkRequest (apiUrl apiBase ("/diff/" ++ diffId)) "GET" [] None.

(** [fetchReports(apiBase, diffId)], up to its call of [fetch]. *)
Definition fetchReports_request (apiBase diffId : string) : Request :=
  mkRequest (apiUrl apiBase ("/reports/" ++ diffId)) "GET" [] None.

(** [updateTriage(apiBase, diffId, state, notes)], up to its call of
    [fetch]; [new URLSearchParams({ state, notes })] lists the two
    properties in order. *)
Definition updateTriage_request (apiBase diffId state notes : string) : Request :=
  mkRequest (apiUrl apiBase ("/diff/" ++ diffId ++ "/triage")) "POST"
            [("Content-Type", "application/x-www-form-urlencoded")]
            (Some [("state", state); ("notes", notes)]).

(** How often a name occurs in a query. *)
Definition occurrences (l : URLSearchParams) (name : string) : nat :=
  length (filter (fun p => String.eqb (fst p) name) l).

(** The pair [fetchQueue] writes for an entry of [params]. *)
Definition query_pair (entry : string * ParamValue) : string * string :=
  (fst entry, String_of (snd entry)).

(** *** The state of [QueueView] *)

(** [interface QueueItem]; [created_at: string | null]. *)
Record QueueItem := mkQueueItem {
  item_id : string;
  item_diff_id : string;
  item_build_from : string;
  item_build_to : string;
  item_component : string;
  item_score : number;
  item_state : string;
  item_notes : string;
  item_created_at : option string
}.

(** The three [useState] cells the request of [QueueView] writes:
    [items], [loading], [error] ([string | null]). *)
Record QueueState := mkQueueState {
  items : list QueueItem;
  loading : bool;
  error : option string
}.

(** [useState([])], [useState(true)], [useState(null)]. *)
Definition QueueView_initial : QueueState := mkQueueState [] true None.

(** One callback of the promise chain of an effect run, with the value its
    [cancelled] flag has when it runs: [.then((data) => ...)],
    [.catch((e) => ...)] with [e.message], [.finally(() => ...)]. *)
Inductive Callback :=
| OnThen (cancelled : bool) (data : list QueueItem)
| OnCatch (cancelled : bool) (message : string)
| OnFinally (cancelled : bool).

(** What a callback does to the state: each one is guarded by
    [if (!cancelled)]. *)
Definition QueueView_callback (st : QueueState) (cb : Callback) : QueueState :=
  match cb with
  | OnThen cancelled data =>
      if negb cancelled then mkQueueState data (loading st) (error st) else st
  | OnCatch cancelled message =>
      if negb cancelled then mkQueueState (items st) (loading st) (Some message) else st
  | OnFinally cancelled =>
      if negb cancelled then mkQueueState (items st) false (error st) else st
  end.

(** A [Response] as [fetchQueue] reads it: [r.ok], [r.statusText], and what
    [r.json()] settles to (the message of the rejection, or the items). *)
Record Response := mkResponse {
  resp_ok : bool;
  resp_statusText : string;
  resp_json : string + list QueueItem
}.

(** [fetchQueue] after [fetch] has resolved:
    [if (!r.ok) throw new Error(r.statusText); return r.json();]
    The left side is the message of the error the promise rejects with. *)
Definition fetchQueue_settles (r : Response) : string + list QueueItem :=
  if negb (resp_ok r) then inl (resp_statusText r) else resp_json r.

(** The callbacks of the chain [.then(...).catch(...).finally(...)] that run
    when the promise of [fetchQueue] settles. *)
Definition chain_callbacks (cancelled : bool) (outcome : string + list QueueItem)
    : list Callback :=
  match outcome with
  | inr data => [OnThen cancelled data; OnFinally cancelled]
  | inl message => [OnCatch cancelled message; OnFinally cancelled]
  end.

(** The state after a sequence of callbacks. *)
Definition QueueView_run (st : QueueState) (cbs : list Callback) : QueueState :=
  fold_left QueueView_callback cbs st.

(** What [QueueView] returns: the loading line, the error line, or the
    table, with the "No items" notice when [items.length === 0]. *)
Inductive QueueRendering :=
| ShowLoading
| ShowError (message : string)
| ShowTable (rows : list QueueItem) (no_items_notice : bool).

(** [if (loading) return ...; if (error) return ...; return (table)]:
    [error] is tested for truthiness, so [null] and the empty string both
    fall through to the table. *)
Definition QueueView_render (st : QueueState) : QueueRendering :=
  if loading st then ShowLoading
  else match error st with
       | Some message =>
           if truthy message then ShowError message
           else ShowTable (items st) (Nat.eqb (length (items st)) 0)
       | None => ShowTable (items st) (Nat.eqb (length (items st)) 0)
       end.

(** The value of [cancelled] a callback finds. *)
Definition found_cancelled (cb : Callback) : bool :=
  match cb with
  | OnThen cancelled _ | OnCatch cancelled _ | OnFinally cancelled => cancelled
  end.

(** A callback that can write [error]: a [catch] that is not cancelled. *)
Definition writes_error (cb : Callback) : bool :=
  match cb with
  | OnCatch cancelled _ => negb cancelled
  | _ => false
  end.

(** ** The scoring back end, from its specification

    The Python back end (analyzers, assembler, scoring engine) is not among
    the sources; the two components below are modelled from the design
    specification. *)

(** *** LogTemplateExtractor *)

(** Modelled from the spec: one parsed record of a build's log stream, the
    input of the missing LogTemplateExtractor. *)
Record LogLine := mkLogLine {
  line_subsystem : string;
  line_category : string;
  line_message : string
}.

(** Modelled from the spec: [LogTemplate], [{subsystem, category,
    format_string, template_id}]; [api.ts] types it as [unknown]. *)
Record LogTemplate := mkLogTemplate {
  subsystem : string;
  category : string;
  format_string : string;
  template_id : string
}.

(** Replacement of the variable tokens of a message (numbers, hex addresses,
    quoted strings) by placeholders, and the derivation of a template's
    StableId from [(subsystem, category, format_string)]: the specification
    fixes neither, both are taken as given. *)
Variable derive_format : string -> string.
Variable derive_template_id : string -> string -> string -> string.

(** A message shape: [(subsystem, category, format_string)]. *)
Definition Shape := (string * string * string)%type.

Definition shape_eqb (a b : Shape) : bool :=
  String.eqb (fst (fst a)) (fst (fst b))
  && String.eqb (snd (fst a)) (snd (fst b))
  && String.eqb (snd a) (snd b).

Definition shape_of (l : LogLine) : Shape :=
  (line_subsystem l, line_category l, derive_format (line_message l)).

Definition template_of (s : Shape) : LogTemplate :=
  let '(sub, cat, fmt) := s in
  mkLogTemplate sub cat fmt (derive_template_id sub cat fmt).

Definition template_shape (t : LogTemplate) : Shape :=
  (subsystem t, category t, format_string t).

(** Modelled from the spec: one turn of the missing LogTemplateExtractor's
    loop over the stream.  The state is the shapes seen so far and the
    templates emitted so far; a line whose shape was seen adds nothing. *)
Definition extract_step (state : list Shape * list LogTemplate) (l : LogLine)
    : list Shape * list LogTemplate :=
  let s := shape_of l in
  if existsb (shape_eqb s) (fst state) then state
  else (s :: fst state, (snd state ++ [template_of s])%list).

(** Modelled from the spec: the missing LogTemplateExtractor.  Output is
    deduplicated by shape, in first-seen order. *)
Definition extract_templates (stream : list LogLine) : list LogTemplate :=
  snd (fold_left extract_step stream ([], [])).

(** Modelled from the spec: "first-seen order" of the distinct shapes of a
    list, by recursion on the list: the head comes first and is struck from
    what the tail contributes. *)
Fixpoint first_seen (shapes : list Shape) : list Shape :=
  match shapes with
  | [] => []
  | s :: rest => s :: filter (fun t => negb (shape_eqb s t)) (first_seen rest)
  end.

(** *** LogBinaryCorrelator *)

(** [needle] occurs at the start of [hay], character by character. *)
Fixpoint occurs_at_start (needle hay : string) {struct needle} : bool :=
  match needle with
  | EmptyString => true
  | String a needle' =>
      match hay with
      | EmptyString => false
      | String b hay' => Ascii.eqb a b && occurs_at_start needle' hay'
      end
  end.

(** Modelled from the spec: the "pure substring-membership test" of the
    missing LogBinaryCorrelator: [needle] occurs verbatim somewhere in
    [hay]. *)
Fixpoint is_substring (needle hay : string) {struct hay} : bool :=
  occurs_at_start needle hay
  || match hay with
     | EmptyString => false
     | String _ hay' => is_substring needle hay'
     end.

(** The literal fragments of a format string (its text between
    placeholders): the specification does not fix the placeholder syntax,
    the split is taken as given. *)
Variable literal_fragments : string -> list string.

(** Modelled from the spec: what the missing LogBinaryCorrelator looks for
    on behalf of a template, "the template's literal format string (or a
    literal fragment of it)". *)
Definition candidates (t : LogTemplate) : list string :=
  format_string t :: literal_fragments (format_string t).

(** Modelled from the spec: whether a template matches one string of the
    binary's string table. *)
Definition template_matches (t : LogTemplate) (entry : string) : bool :=
  existsb (fun c => is_substring c entry) (candidates t).

(** Modelled from the spec: the missing LogBinaryCorrelator.  Input: the
    templates and the string table of one [BinaryFeatureSet]; output: every
    [(template_id, string)] pair that matches, templates in order and, for
    each, the strings in table order. *)
Definition correlate (templates : list LogTemplate) (strings : list string)
    : list (string * string) :=
  flat_map (fun t => map (fun entry => (template_id t, entry))
                         (filter (template_matches t) strings))
           templates.

(** [needle] occurs verbatim in [hay]. *)
Definition occurs_in (needle hay : string) : Prop :=
  exists before after, hay = before ++ needle ++ after.

(** *** Auxiliary functions for the proofs *)

(** Deduplication of a list of shapes against the shapes already seen. *)
Fixpoint dedup_from (seen shapes : list Shape) : list Shape :=
  match shapes with
  | [] => []
  | s :: rest =>
      if existsb (shape_eqb s) seen then dedup_from seen rest
      else s :: dedup_from (s :: seen) rest
  end.

(** * Part II: properties *)

(** ** String primitives *)

Lemma append_nil_r (s : string) : s ++ "" = s.
Proof. induction s as [|c s IH]; simpl; [reflexivity | now rewrite IH]. Qed.

Lemma append_assoc (a b c : string) : (a ++ b) ++ c = a ++ (b ++ c).
Proof. induction a as [|x a IH]; simpl; [reflexivity | now rewrite IH]. Qed.

Lemma startsWith_true_iff (s p : string) :
  startsWith s p = true <-> has_prefix p s.
Proof.
  revert s; induction p as [|a p IH]; intros s; simpl.
  - split; [intros _; now exists s | reflexivity].
  - destruct s as [|b s].
    + split; [discriminate | intros [r Hr]; discriminate].
    + rewrite andb_true_iff, Ascii.eqb_eq, IH. split.
      * intros [-> [r ->]]. now exists r.
      * intros [r Hr]. simpl in Hr. injection Hr as -> ->. split; [reflexivity | now exists r].
Qed.

Lemma startsWith_false_iff (s p : string) :
  startsWith s p = false <-> ~ has_prefix p s.
Proof.
  rewrite <- startsWith_true_iff. destruct (startsWith s p); split; congruence.
Qed.

Lemma append_slash_not_empty (t : string) : t ++ "/" <> "".
Proof. destruct t; discriminate. Qed.

Lemma append_slash_inj (t u : string) : t ++ "/" = u ++ "/" -> t = u.
Proof.
  revert u; induction t as [|c t IH]; intros [|d u] H; simpl in H.
  - reflexivity.
  - injection H as _ H. exfalso. now apply (append_slash_not_empty u).
  - injection H as _ H. exfalso. now apply (append_slash_not_empty t).
  - injection H as -> H. f_equal. now apply IH.
Qed.

(** One trailing slash is removed, and only one. *)
Lemma replace_trailing_slash_yes (t : string) :
  replace_trailing_slash (t ++ "/") = t.
Proof.
  induction t as [|c t IH]; [reflexivity|].
  change (String c t ++ "/") with (String c (t ++ "/")).
  cbn [replace_trailing_slash]. rewrite IH.
  destruct (t ++ "/") eqn:E; [now apply append_slash_not_empty in E | reflexivity].
Qed.

Lemma replace_trailing_slash_no (s : string) :
  ~ ends_with_slash s -> replace_trailing_slash s = s.
Proof.
  induction s as [|c s IH]; intros H; [reflexivity|].
  cbn [replace_trailing_slash]. destruct s as [|d s'].
  - destruct (Ascii.eqb_spec c "/") as [->|]; [|reflexivity].
    exfalso. apply H. now exists "".
  - rewrite IH; [reflexivity|]. intros [t Ht]. apply H.
    exists (String c t). simpl. now rewrite <- Ht.
Qed.

Lemma ends_with_slash_dec (s : string) :
  {t | s = t ++ "/"} + {~ ends_with_slash s}.
Proof.
  induction s as [|c s IH].
  - right. intros [t Ht]. symmetry in Ht. now apply append_slash_not_empty in Ht.
  - destruct s as [|d s'].
    + destruct (Ascii.eqb_spec c "/") as [->|Hc].
      * left. now exists "".
      * right. intros [[|x [|y t]] Ht]; simpl in Ht; try discriminate; injection Ht as ->; congruence.
    + destruct IH as [[t Ht]|Hn].
      * left. exists (String c t). simpl. now rewrite <- Ht.
      * right. intros [[|x t] Ht]; simpl in Ht; [discriminate|].
        injection Ht as -> Ht. apply Hn. now exists t.
Qed.

Lemma strips_one_slash_iff (s t : string) :
  strips_one_slash s t <-> replace_trailing_slash s = t.
Proof.
  split.
  - intros [u | u Hu].
    + apply replace_trailing_slash_yes.
    + now apply replace_trailing_slash_no.
  - intros <-. destruct (ends_with_slash_dec s) as [[u ->] | Hn].
    + rewrite replace_trailing_slash_yes. constructor.
    + rewrite replace_trailing_slash_no by assumption. now constructor.
Qed.

(** ** [apiUrl] *)

(** C9: [apiUrl(apiBase, path)] removes exactly one trailing slash from
    [apiBase] (when there is one) and appends [path]; a result starting with
    "http" is returned unchanged, any other is prefixed with
    [window.location.origin], a slash being inserted exactly when the string
    does not start with one.  The relation [apiUrl_spec] spells this out, and
    for a fixed origin it holds of one result only: the value of [apiUrl]. *)
Theorem apiUrl_meets_spec (apiBase path result : string) :
  apiUrl_spec apiBase path result <-> apiUrl apiBase path = result.
Proof.
  unfold apiUrl. split.
  - intros [base Hs Hp | base Hs Hn Hp | base Hs Hn Hp];
      apply strips_one_slash_iff in Hs; rewrite Hs.
    + apply startsWith_true_iff in Hp. now rewrite Hp.
    + apply startsWith_false_iff in Hn. apply startsWith_true_iff in Hp.
      now rewrite Hn, Hp.
    + apply startsWith_false_iff in Hn. apply startsWith_false_iff in Hp.
      now rewrite Hn, Hp.
  - intros <-.
    assert (Hs : strips_one_slash apiBase (replace_trailing_slash apiBase))
      by now apply strips_one_slash_iff.
    destruct (startsWith (replace_trailing_slash apiBase ++ path) "http") eqn:Hh.
    + apply apiUrl_absolute; [assumption | now apply startsWith_true_iff].
    + apply startsWith_false_iff in Hh.
      destruct (startsWith (replace_trailing_slash apiBase ++ path) "/") eqn:Hr.
      * apply apiUrl_rooted; [assumption | assumption | now apply startsWith_true_iff].
      * apply apiUrl_relative; [assumption | assumption | now apply startsWith_false_iff].
Qed.

(** ** [URLSearchParams] *)

Lemma searchParams_has_get (l : URLSearchParams) (k : string) :
  searchParams_has l k = true <-> searchParams_get l k <> None.
Proof.
  unfold searchParams_has. induction l as [|[n v] l IH]; simpl.
  - split; [discriminate | congruence].
  - destruct (String.eqb n k); simpl; [split; [discriminate | reflexivity] | exact IH].
Qed.

Lemma searchParams_has_false_get (l : URLSearchParams) (k : string) :
  searchParams_has l k = false <-> searchParams_get l k = None.
Proof.
  pose proof (searchParams_has_get l k) as H.
  destruct (searchParams_has l k), (searchParams_get l k); split; intros E;
    try reflexivity; try discriminate.
  - exfalso. now apply H.
  - exfalso. destruct H as [_ H]. discriminate H. discriminate.
Qed.

Lemma searchParams_get_app (l l' : URLSearchParams) (k : string) :
  searchParams_get (l ++ l')%list k =
  match searchParams_get l k with
  | Some v => Some v
  | None => searchParams_get l' k
  end.
Proof.
  induction l as [|[n v] l IH]; simpl; [reflexivity|].
  destruct (String.eqb n k); [reflexivity | exact IH].
Qed.

Lemma searchParams_get_filter_other (l : URLSearchParams) (k k' : string) :
  k' <> k ->
  searchParams_get (filter (fun p => negb (String.eqb (fst p) k)) l) k' =
  searchParams_get l k'.
Proof.
  intros Hne. induction l as [|[n v] l IH]; simpl; [reflexivity|].
  destruct (String.eqb_spec n k) as [->|Hn]; simpl.
  - destruct (String.eqb_spec k k') as [E|_]; [congruence | exact IH].
  - now rewrite IH.
Qed.

(** After [set(k, v)], [get(k)] is [v]. *)
Lemma searchParams_get_set_same (l : URLSearchParams) (k v : string) :
  searchParams_get (searchParams_set l k v) k = Some v.
Proof.
  unfold searchParams_set. destruct (searchParams_has l k) eqn:Hh.
  - unfold searchParams_has in Hh. induction l as [|[n w] l IH]; simpl in *; [discriminate|].
    destruct (String.eqb n k) eqn:E; simpl.
    + now rewrite E.
    + rewrite E. now apply IH.
  - apply searchParams_has_false_get in Hh.
    rewrite searchParams_get_app, Hh. simpl. now rewrite String.eqb_refl.
Qed.

(** [set(k, v)] leaves the other names alone. *)
Lemma searchParams_get_set_other (l : URLSearchParams) (k k' v : string) :
  k' <> k ->
  searchParams_get (searchParams_set l k v) k' = searchParams_get l k'.
Proof.
  intros Hne. unfold searchParams_set. destruct (searchParams_has l k).
  - induction l as [|[n w] l IH]; simpl; [reflexivity|].
    destruct (String.eqb_spec n k) as [->|Hn]; simpl.
    + destruct (String.eqb_spec k k') as [E|_]; [congruence|].
      now apply searchParams_get_filter_other.
    + now rewrite IH.
  - rewrite searchParams_get_app. destruct (searchParams_get l k'); [reflexivity|].
    simpl. destruct (String.eqb_spec k k') as [E|_]; [congruence | reflexivity].
Qed.

(** ** [fetchQueue] *)


Lemma object_get_absent (params : Params) (k : string) :
  ~ In k (map fst params) -> object_get params k = PUndefined.
Proof.
  induction params as [|[k' v] rest IH]; simpl; [reflexivity|].
  intros H. destruct (String.eqb_spec k' k) as [->|_].
  - exfalso. apply H. now left.
  - apply IH. intros Hin. apply H. now right.
Qed.

(** The query after the [forEach] of [fetchQueue], one name at a time. *)
Lemma fold_add_param_get (params : Params) (url : URL) (k : string) :
  well_formed_object params ->
  searchParams_get (searchParams (fold_left add_param params url)) k =
  if passes_guard (object_get params k)
  then Some (String_of (object_get params k))
  else searchParams_get (searchParams url) k.
Proof.
  unfold well_formed_object. revert url.
  induction params as [|[k' v] rest IH]; intros url Hnd; simpl; [reflexivity|].
  inversion Hnd as [|? ? Hnotin Hnd']; subst.
  rewrite IH by assumption.
  destruct (String.eqb_spec k' k) as [->|Hne].
  - rewrite (object_get_absent rest k) by assumption. simpl.
    destruct (passes_guard v); simpl; [|reflexivity].
    apply searchParams_get_set_same.
  - destruct (passes_guard (object_get rest k)); [reflexivity|].
    destruct (passes_guard v); simpl; [|reflexivity].
    apply searchParams_get_set_other. congruence.
Qed.

(** ** [QueueView] *)

Lemma QueueView_params_well_formed (fc fs fm : string) :
  well_formed_object (QueueView_params fc fs fm).
Proof.
  unfold well_formed_object, QueueView_params.
  destruct (truthy fc), (truthy fs), (negb (isNaN (parseFloat fm))); simpl;
    repeat constructor; simpl; intros H;
    repeat (destruct H as [H|H]; [discriminate H|]); exact H.
Qed.



(** ** The [Reason] record *)

(** C8, as amended: a [Reason] consists of exactly the fields [reason] (the
    explanation string), [score_contribution] (a number) and [evidence_refs]
    (a list of [EvidenceRef]); it has no field [text], and the explanation
    [DiffDetailView] renders is the value of [reason]. *)
Theorem Reason_fields (r : Reason) :
  prop_names (Reason_object r) = ["reason"; "score_contribution"; "evidence_refs"] /\
  get_prop (Reason_object r) "reason" = JString (reason r) /\
  get_prop (Reason_object r) "score_contribution" = JNumber (score_contribution r) /\
  get_prop (Reason_object r) "evidence_refs" =
    JArray (map EvidenceRef_object (evidence_refs r)) /\
  has_prop (Reason_object r) "text" = false /\
  rendered_explanation (Reason_object r) = Some (reason r) /\
  has_prefix (reason r) (reason_item r).
Proof.
  repeat split; try reflexivity.
  unfold reason_item. now exists (" — refs: " ++ join ", " (map stable_id (evidence_refs r))).
Qed.

(** ** LogTemplateExtractor *)

Lemma shape_eqb_eq (a b : Shape) : shape_eqb a b = true <-> a = b.
Proof.
  destruct a as [[a1 a2] a3], b as [[b1 b2] b3]. unfold shape_eqb. simpl.
  rewrite !andb_true_iff, !String.eqb_eq. split.
  - intros [[-> ->] ->]. reflexivity.
  - intros H. injection H as -> -> ->. auto.
Qed.

Lemma shape_eqb_refl (a : Shape) : shape_eqb a a = true.
Proof. now apply shape_eqb_eq. Qed.

Lemma shape_eqb_sym (a b : Shape) : shape_eqb a b = shape_eqb b a.
Proof.
  destruct (shape_eqb a b) eqn:E1, (shape_eqb b a) eqn:E2; try reflexivity.
  - apply shape_eqb_eq in E1. subst. now rewrite shape_eqb_refl in E2.
  - apply shape_eqb_eq in E2. subst. now rewrite shape_eqb_refl in E1.
Qed.

Lemma seen_iff (s : Shape) (seen : list Shape) :
  existsb (shape_eqb s) seen = true <-> In s seen.
Proof.
  rewrite existsb_exists. split.
  - intros [t [Hin Heq]]. apply shape_eqb_eq in Heq. now subst.
  - intros Hin. exists s. split; [assumption | apply shape_eqb_refl].
Qed.

Lemma template_shape_of (s : Shape) : template_shape (template_of s) = s.
Proof. now destruct s as [[sub cat] fmt]. Qed.

(** The loop emits the templates of the shapes not seen before, in order. *)
Lemma extract_fold (stream : list LogLine) (state : list Shape * list LogTemplate) :
  snd (fold_left extract_step stream state) =
  (snd state ++ map template_of (dedup_from (fst state) (map shape_of stream)))%list.
Proof.
  revert state. induction stream as [|l stream IH]; intros state; simpl.
  - now rewrite app_nil_r.
  - rewrite IH. unfold extract_step.
    destruct (existsb (shape_eqb (shape_of l)) (fst state)); simpl.
    + reflexivity.
    + now rewrite <- app_assoc.
Qed.

Lemma filter_twice {A : Type} (f g : A -> bool) (l : list A) :
  filter f (filter g l) = filter (fun x => g x && f x) l.
Proof.
  induction l as [|x l IH]; simpl; [reflexivity|].
  destruct (g x); simpl; [destruct (f x)|]; now rewrite IH.
Qed.

(** Deduplication against [seen] is first-seen order with [seen] struck out. *)
Lemma dedup_from_first_seen (seen shapes : list Shape) :
  dedup_from seen shapes =
  filter (fun t => negb (existsb (shape_eqb t) seen)) (first_seen shapes).
Proof.
  revert seen. induction shapes as [|s rest IH]; intros seen; simpl; [reflexivity|].
  destruct (existsb (shape_eqb s) seen) eqn:Hs; simpl.
  - rewrite IH, filter_twice. apply filter_ext. intros t.
    destruct (shape_eqb s t) eqn:E; simpl; [|reflexivity].
    apply shape_eqb_eq in E. subst. now rewrite Hs.
  - f_equal. rewrite IH, filter_twice. apply filter_ext. intros t.
    simpl. rewrite (shape_eqb_sym t s).
    destruct (shape_eqb s t), (existsb (shape_eqb t) seen); reflexivity.
Qed.

Lemma dedup_from_nil (shapes : list Shape) : dedup_from [] shapes = first_seen shapes.
Proof.
  rewrite dedup_from_first_seen. simpl.
  induction (first_seen shapes) as [|t l IH]; simpl; [reflexivity | now rewrite IH].
Qed.

(** [first_seen] keeps every shape of the list, once. *)
Lemma first_seen_In (shapes : list Shape) (s : Shape) :
  In s (first_seen shapes) <-> In s shapes.
Proof.
  induction shapes as [|a rest IH]; simpl; [reflexivity|].
  rewrite filter_In, IH, negb_true_iff. split.
  - intros [H | [H _]]; auto.
  - intros [H | H]; [now left|].
    destruct (shape_eqb a s) eqn:E.
    + left. now apply shape_eqb_eq.
    + right. now split.
Qed.

Lemma first_seen_NoDup (shapes : list Shape) : NoDup (first_seen shapes).
Proof.
  induction shapes as [|a rest IH]; simpl; constructor.
  - rewrite filter_In, shape_eqb_refl. intros [_ H]. discriminate.
  - now apply NoDup_filter.
Qed.

(** A line whose shape was seen leaves the state of the loop as it is. *)
Lemma extract_fold_noop (stream : list LogLine) (state : list Shape * list LogTemplate) :
  (forall l, In l stream -> In (shape_of l) (fst state)) ->
  fold_left extract_step stream state = state.
Proof.
  induction stream as [|l stream IH]; intros Hseen; simpl; [reflexivity|].
  assert (Hl : existsb (shape_eqb (shape_of l)) (fst state) = true).
  { apply seen_iff, Hseen. now left. }
  unfold extract_step at 2. rewrite Hl. apply IH.
  intros l' Hl'. apply Hseen. now right.
Qed.

(** The loop remembers every shape it has met. *)
Lemma extract_fold_seen (stream : list LogLine) (state : list Shape * list LogTemplate)
    (s : Shape) :
  In s (fst state) \/ In s (map shape_of stream) ->
  In s (fst (fold_left extract_step stream state)).
Proof.
  revert state. induction stream as [|l stream IH]; intros state; simpl.
  - intros [H | []]. exact H.
  - intros H. apply IH. unfold extract_step.
    destruct (existsb (shape_eqb (shape_of l)) (fst state)) eqn:Hl; simpl.
    + destruct H as [H | [<- | H]]; auto. left. now apply seen_iff.
    + destruct H as [H | [<- | H]]; auto.
Qed.

(** C7: the LogTemplateExtractor lists one template per distinct
    (subsystem, category, format_string) shape of the stream, in first-seen
    order, each with the [template_id] derived from its shape; so the output
    and its ids are a function of the stream alone, and reading the same
    stream once more adds nothing and changes nothing. *)
Theorem extract_templates_first_seen (stream : list LogLine) :
  extract_templates stream = map template_of (first_seen (map shape_of stream)) /\
  NoDup (map template_shape (extract_templates stream)) /\
  (forall s, In s (map template_shape (extract_templates stream)) <->
             In s (map shape_of stream)) /\
  Forall (fun t => template_id t =
                   derive_template_id (subsystem t) (category t) (format_string t))
         (extract_templates stream) /\
  extract_templates (stream ++ stream) = extract_templates stream.
Proof.
  assert (E : extract_templates stream = map template_of (first_seen (map shape_of stream))).
  { unfold extract_templates. rewrite extract_fold. simpl. now rewrite dedup_from_nil. }
  assert (S : map template_shape (extract_templates stream) =
              first_seen (map shape_of stream)).
  { rewrite E, map_map. erewrite map_ext; [apply map_id|]. apply template_shape_of. }
  split; [exact E|]. rewrite S. split; [apply first_seen_NoDup|].
  split; [intros s; apply first_seen_In|]. split.
  - rewrite E. apply Forall_forall. intros t Ht. apply in_map_iff in Ht.
    destruct Ht as [[[sub cat] fmt] [<- _]]. reflexivity.
  - unfold extract_templates. rewrite fold_left_app. f_equal.
    apply extract_fold_noop. intros l Hl. apply extract_fold_seen.
    right. now apply in_map.
Qed.

(** ** LogBinaryCorrelator *)

Lemma occurs_at_start_iff (needle hay : string) :
  occurs_at_start needle hay = true <-> has_prefix needle hay.
Proof.
  revert hay; induction needle as [|a needle IH]; intros hay; simpl.
  - split; [intros _; now exists hay | reflexivity].
  - destruct hay as [|b hay].
    + split; [discriminate | intros [r Hr]; discriminate].
    + rewrite andb_true_iff, Ascii.eqb_eq, IH. split.
      * intros [-> [r ->]]. now exists r.
      * intros [r Hr]. simpl in Hr. injection Hr as -> ->. split; [reflexivity | now exists r].
Qed.

(** The test decides verbatim occurrence. *)
Lemma is_substring_iff (needle hay : string) :
  is_substring needle hay = true <-> occurs_in needle hay.
Proof.
  induction hay as [|c hay IH]; simpl.
  - rewrite orb_false_r, occurs_at_start_iff. split.
    + intros [r Hr]. exists "", r. exact Hr.
    + intros [[|x before] [after H]]; simpl in H; [now exists after | discriminate].
  - rewrite orb_true_iff, occurs_at_start_iff, IH. split.
    + intros [[r Hr] | [before [after H]]].
      * exists "", r. exact Hr.
      * exists (String c before), after. simpl. now rewrite H.
    + intros [[|x before] [after H]]; simpl in H.
      * left. now exists after.
      * right. injection H as _ H. now exists before, after.
Qed.

Lemma occurs_in_refl (s : string) : occurs_in s s.
Proof. exists "", "". simpl. now rewrite append_nil_r. Qed.

Lemma template_matches_iff (t : LogTemplate) (entry : string) :
  template_matches t entry = true <->
  exists c, In c (candidates t) /\ occurs_in c entry.
Proof.
  unfold template_matches. rewrite existsb_exists.
  split; intros [c [Hc H]]; exists c; (split; [exact Hc | now apply is_substring_iff]).
Qed.

Lemma template_matches_none (t : LogTemplate) (entries : list string) :
  (forall e, In e entries -> forall c, In c (candidates t) -> ~ occurs_in c e) ->
  filter (template_matches t) entries = [].
Proof.
  induction entries as [|e entries IH]; intros H; simpl; [reflexivity|].
  destruct (template_matches t e) eqn:E.
  - apply template_matches_iff in E. destruct E as [c [Hc Ho]].
    exfalso. apply (H e (or_introl eq_refl) c Hc Ho).
  - apply IH. intros e' He'. apply H. now right.
Qed.

Lemma template_matches_own_format (t : LogTemplate) :
  template_matches t (format_string t) = true.
Proof.
  apply template_matches_iff. exists (format_string t).
  split; [now left | apply occurs_in_refl].
Qed.

(** C5: the output of the LogBinaryCorrelator holds a pair
    [(template_id, string)] exactly when the string is in the binary's
    string table and the template's literal format string, or a literal
    fragment of it, occurs verbatim in it: a substring test and nothing
    else.  So a template whose literal string is in the table, and occurs in
    no other entry, yields exactly one match; a template none of whose
    strings occurs in the table yields none. *)
Theorem correlate_substring_matches (templates : list LogTemplate) (strings : list string) :
  (forall tid entry,
      In (tid, entry) (correlate templates strings) <->
      exists t, In t templates /\ template_id t = tid /\ In entry strings /\
                exists c, In c (candidates t) /\ occurs_in c entry) /\
  (forall t before after,
      (forall e, In e (before ++ after)%list ->
                 forall c, In c (candidates t) -> ~ occurs_in c e) ->
      correlate [t] (before ++ format_string t :: after)%list =
      [(template_id t, format_string t)]) /\
  (forall t,
      (forall e, In e strings -> forall c, In c (candidates t) -> ~ occurs_in c e) ->
      correlate [t] strings = []).
Proof.
  split; [|split].
  - intros tid entry. unfold correlate. rewrite in_flat_map. split.
    + intros [t [Ht Hin]]. apply in_map_iff in Hin.
      destruct Hin as [e [Heq He]]. injection Heq as <- <-.
      apply filter_In in He. destruct He as [He Hm].
      exists t. repeat split; try assumption. now apply template_matches_iff.
    + intros [t [Ht [<- [He Hc]]]]. exists t. split; [assumption|].
      apply in_map_iff. exists entry. split; [reflexivity|].
      apply filter_In. split; [assumption | now apply template_matches_iff].
  - intros t before after Hnone. unfold correlate. simpl. rewrite app_nil_r.
    rewrite filter_app. simpl. rewrite template_matches_own_format.
    rewrite (template_matches_none t before), (template_matches_none t after).
    + reflexivity.
    + intros e He. apply Hnone. apply in_or_app. now right.
    + intros e He. apply Hnone. apply in_or_app. now left.
  - intros t Hnone. unfold correlate. simpl. rewrite app_nil_r.
    now rewrite template_matches_none.
Qed.

(** * Further properties of the client *)

(** ** [apiUrl] on the paths of [api.ts] *)

Lemma append_inv_head (p a b : string) : p ++ a = p ++ b -> a = b.
Proof.
  induction p as [|c p IH]; simpl; intros H; [exact H|].
  injection H as H. now apply IH.
Qed.

Lemma has_prefix_app (p s t : string) : has_prefix p s -> has_prefix p (s ++ t).
Proof. intros [r ->]. exists (r ++ t). now rewrite append_assoc. Qed.

(** A slash after fewer than four characters cannot complete "http". *)
Lemma startsWith_http_before_slash (base rest : string) :
  startsWith (base ++ String "/" rest) "http" = startsWith base "http".
Proof.
  destruct base as [|a [|b [|c [|d base]]]]; simpl;
    rewrite ?andb_false_r; reflexivity.
Qed.

Lemma startsWith_slash_before_slash (base rest : string) :
  startsWith (base ++ String "/" rest) "/" =
  match base with
  | EmptyString => true
  | _ => startsWith base "/"
  end.
Proof. destruct base as [|a base]; reflexivity. Qed.

(** X1: for every path that begins with a slash (all paths of [api.ts] do),
    [apiUrl] returns the path behind a prefix that depends on the base and
    the origin only. *)
Theorem apiUrl_rooted_path (apiBase path : string) :
  has_prefix "/" path ->
  apiUrl apiBase path = api_prefix apiBase ++ path.
Proof.
  intros [rest ->]. unfold apiUrl, api_prefix. cbv zeta.
  change ("/" ++ rest) with (String "/" rest).
  rewrite startsWith_http_before_slash, startsWith_slash_before_slash.
  destruct (startsWith (replace_trailing_slash apiBase) "http"); [reflexivity|].
  destruct (replace_trailing_slash apiBase) as [|a base] eqn:E;
    [rewrite append_assoc; reflexivity|].
  destruct (startsWith (String a base) "/"); rewrite append_assoc; reflexivity.
Qed.

(** X2: the string [fetchDiff] hands to [fetch] carries the diff id
    verbatim, so for one base two ids give the same string only when they
    are equal; likewise for [fetchReports]; and the string of a [fetchDiff]
    request is never the string of a [fetchReports] request.  (This is about
    the strings: the host resolves dot segments, so ids such as "./1" or
    "../reports/7" can still reach the URL of another request.) *)
Theorem diff_urls_distinct (apiBase d1 d2 : string) :
  (req_url (fetchDiff_request apiBase d1) = req_url (fetchDiff_request apiBase d2) <-> d1 = d2) /\
  (req_url (fetchReports_request apiBase d1) = req_url (fetchReports_request apiBase d2)
     <-> d1 = d2) /\
  req_url (fetchDiff_request apiBase d1) <> req_url (fetchReports_request apiBase d2).
Proof.
  unfold fetchDiff_request, fetchReports_request. simpl.
  rewrite !apiUrl_rooted_path by (eexists; reflexivity).
  repeat split.
  - intros H. apply append_inv_head in H. now injection H.
  - now intros ->.
  - intros H. apply append_inv_head in H.
    apply (append_inv_head "/reports/") in H. exact H.
  - now intros ->.
  - intros H. apply append_inv_head in H. discriminate H.
Qed.

(** X3: the triage request of a diff goes to the URL of that diff followed
    by "/triage", as a POST whose form body always carries both [state] and
    [notes], empty or not. *)
Theorem updateTriage_extends_diff_url (apiBase diffId state notes : string) :
  req_url (updateTriage_request apiBase diffId state notes) =
    req_url (fetchDiff_request apiBase diffId) ++ "/triage" /\
  req_method (updateTriage_request apiBase diffId state notes) = "POST" /\
  req_body (updateTriage_request apiBase diffId state notes) =
    Some [("state", state); ("notes", notes)].
Proof.
  unfold updateTriage_request, fetchDiff_request. simpl.
  rewrite !apiUrl_rooted_path by (eexists; reflexivity).
  repeat split.
  rewrite append_assoc. reflexivity.
Qed.

(** X4: a trailing slash on the base makes no difference. *)
Theorem apiUrl_trailing_slash_irrelevant (apiBase path : string) :
  ~ ends_with_slash apiBase ->
  apiUrl (apiBase ++ "/") path = apiUrl apiBase path.
Proof.
  intros H. unfold apiUrl.
  now rewrite replace_trailing_slash_yes, replace_trailing_slash_no.
Qed.

(** X5: when the origin starts with "http", so does every result of
    [apiUrl].  (That alone does not make the result a URL: the base "httpd"
    gives "httpd/queue".) *)
Theorem apiUrl_starts_with_http (apiBase path : string) :
  has_prefix "http" origin ->
  has_prefix "http" (apiUrl apiBase path).
Proof.
  intros Ho. unfold apiUrl. cbv zeta.
  destruct (startsWith (replace_trailing_slash apiBase ++ path) "http") eqn:E.
  - now apply startsWith_true_iff.
  - now apply has_prefix_app.
Qed.

(** X6: a base that starts with "http" is used as it is, minus one trailing
    slash: the origin plays no part in the result. *)
Theorem apiUrl_http_base (apiBase path : string) :
  has_prefix "http" apiBase ->
  apiUrl apiBase path = replace_trailing_slash apiBase ++ path.
Proof.
  intros Hb. unfold apiUrl. cbv zeta.
  assert (Hs : has_prefix "http" (replace_trailing_slash apiBase)).
  { destruct (ends_with_slash_dec apiBase) as [[t ->] | Hn].
    - rewrite replace_trailing_slash_yes.
      apply startsWith_true_iff. apply startsWith_true_iff in Hb.
      change (t ++ "/") with (t ++ String "/" "") in Hb.
      now rewrite startsWith_http_before_slash in Hb.
    - now rewrite replace_trailing_slash_no. }
  apply (has_prefix_app _ _ path), startsWith_true_iff in Hs. now rewrite Hs.
Qed.

(** ** [fetchQueue] on the whole query *)

Lemma fold_add_param_location (params : Params) (url : URL) :
  url_location (fold_left add_param params url) = url_location url.
Proof.
  revert url. induction params as [|[k v] rest IH]; intros url; simpl; [reflexivity|].
  rewrite IH. destruct (passes_guard v); reflexivity.
Qed.

Lemma fold_add_param_rejected (params : Params) (url : URL) :
  (forall k v, In (k, v) params -> passes_guard v = false) ->
  fold_left add_param params url = url.
Proof.
  revert url. induction params as [|[k v] rest IH]; intros url H; simpl; [reflexivity|].
  rewrite (H k v (or_introl eq_refl)). apply IH.
  intros k' v' Hin. apply (H k' v'). now right.
Qed.

Lemma searchParams_has_app (l l' : URLSearchParams) (k : string) :
  searchParams_has (l ++ l')%list k = searchParams_has l k || searchParams_has l' k.
Proof. unfold searchParams_has. apply existsb_app. Qed.

(** On a query that has none of the keys, the loop appends one pair per
    entry that passes the guard, in the order of the entries. *)
Lemma fold_add_param_fresh (params : Params) (url : URL) :
  well_formed_object params ->
  (forall k, In k (map fst params) -> searchParams_has (searchParams url) k = false) ->
  fold_left add_param params url =
  mkURL (url_location url)
        (searchParams url ++ map query_pair (filter (fun e => passes_guard (snd e)) params))%list.
Proof.
  unfold well_formed_object. revert url.
  induction params as [|[k v] rest IH]; intros url Hnd Hfresh; simpl.
  - rewrite app_nil_r. now destruct url.
  - inversion Hnd as [|? ? Hnotin Hnd']; subst.
    destruct (passes_guard v) eqn:Hv; simpl.
    + rewrite IH; simpl; [|assumption|].
      * unfold searchParams_set. rewrite (Hfresh k (or_introl eq_refl)).
        now rewrite <- app_assoc.
      * intros k' Hk'. unfold searchParams_set. rewrite (Hfresh k (or_introl eq_refl)).
        rewrite searchParams_has_app, (Hfresh k' (or_intror Hk')). simpl.
        rewrite orb_false_r. apply String.eqb_neq. intros ->. now apply Hnotin.
    + apply IH; [assumption|]. intros k' Hk'. apply Hfresh. now right.
Qed.

Lemma occurrences_app (l l' : URLSearchParams) (k : string) :
  occurrences (l ++ l')%list k = (occurrences l k + occurrences l' k)%nat.
Proof. unfold occurrences. now rewrite filter_app, length_app. Qed.

Lemma occurrences_absent (l : URLSearchParams) (k : string) :
  searchParams_has l k = false -> occurrences l k = 0%nat.
Proof.
  unfold searchParams_has, occurrences. induction l as [|[n v] l IH]; simpl; [reflexivity|].
  destruct (String.eqb n k); simpl; [discriminate | exact IH].
Qed.

Lemma occurrences_struck (l : URLSearchParams) (k : string) :
  occurrences (filter (fun p => negb (String.eqb (fst p) k)) l) k = 0%nat.
Proof.
  unfold occurrences. induction l as [|[n v] l IH]; simpl; [reflexivity|].
  destruct (String.eqb n k) eqn:E; simpl; [exact IH | now rewrite E].
Qed.

Lemma occurrences_struck_other (l : URLSearchParams) (k k' : string) :
  k' <> k ->
  occurrences (filter (fun p => negb (String.eqb (fst p) k)) l) k' = occurrences l k'.
Proof.
  intros Hne. unfold occurrences. induction l as [|[n v] l IH]; simpl; [reflexivity|].
  destruct (String.eqb_spec n k) as [->|Hn]; simpl.
  - destruct (String.eqb_spec k k') as [E|_]; [congruence | exact IH].
  - destruct (String.eqb n k'); simpl; now rewrite IH.
Qed.

Lemma occurrences_cons (n w : string) (l : URLSearchParams) (k : string) :
  occurrences ((n, w) :: l) k =
  ((if String.eqb n k then 1 else 0) + occurrences l k)%nat.
Proof. unfold occurrences. simpl. now destruct (String.eqb n k). Qed.

Lemma occurrences_set_first_same (l : URLSearchParams) (k v : string) :
  searchParams_has l k = true -> occurrences (set_first l k v) k = 1%nat.
Proof.
  unfold searchParams_has. induction l as [|[n w] l IH]; simpl; [discriminate|].
  destruct (String.eqb n k) eqn:E; simpl; intros Hh.
  - now rewrite occurrences_cons, E, occurrences_struck.
  - rewrite occurrences_cons, E. now apply IH.
Qed.

Lemma occurrences_set_first_other (l : URLSearchParams) (k k' v : string) :
  k' <> k -> occurrences (set_first l k v) k' = occurrences l k'.
Proof.
  intros Hne. induction l as [|[n w] l IH]; simpl; [reflexivity|].
  destruct (String.eqb_spec n k) as [->|Hn].
  - now rewrite !occurrences_cons, occurrences_struck_other.
  - now rewrite !occurrences_cons, IH.
Qed.

(** After [set(k, v)] the name [k] occurs once. *)
Lemma occurrences_set_same (l : URLSearchParams) (k v : string) :
  occurrences (searchParams_set l k v) k = 1%nat.
Proof.
  unfold searchParams_set. destruct (searchParams_has l k) eqn:Hh.
  - now apply occurrences_set_first_same.
  - rewrite occurrences_app, (occurrences_absent l k Hh), occurrences_cons.
    now rewrite String.eqb_refl.
Qed.

Lemma occurrences_set_other (l : URLSearchParams) (k k' v : string) :
  k' <> k ->
  occurrences (searchParams_set l k v) k' = occurrences l k'.
Proof.
  intros Hne. unfold searchParams_set. destruct (searchParams_has l k).
  - now apply occurrences_set_first_other.
  - rewrite occurrences_app, occurrences_cons.
    destruct (String.eqb_spec k k') as [E|_]; [congruence|].
    unfold occurrences at 2. simpl. lia.
Qed.

Lemma fold_add_param_occurrences (params : Params) (url : URL) (k : string) :
  well_formed_object params ->
  occurrences (searchParams (fold_left add_param params url)) k =
  if passes_guard (object_get params k) then 1%nat else occurrences (searchParams url) k.
Proof.
  unfold well_formed_object. revert url.
  induction params as [|[k' v] rest IH]; intros url Hnd; simpl; [reflexivity|].
  inversion Hnd as [|? ? Hnotin Hnd']; subst.
  rewrite IH by assumption.
  destruct (String.eqb_spec k' k) as [->|Hne].
  - rewrite (object_get_absent rest k) by assumption. simpl.
    destruct (passes_guard v); simpl; [|reflexivity].
    apply occurrences_set_same.
  - destruct (passes_guard (object_get rest k)); [reflexivity|].
    destruct (passes_guard v); simpl; [|reflexivity].
    apply occurrences_set_other. congruence.
Qed.

(** X7: when the URL built from [apiBase] has no query of its own, the
    query [fetchQueue] requests is exactly one pair [(key, String(value))]
    per entry of [params] that passes the guard, in the order of
    [Object.entries(params)]; what precedes the query is untouched. *)
Theorem fetchQueue_exact_query (apiBase : string) (params : Params) (url0 : URL) :
  well_formed_object params ->
  new_URL (apiUrl apiBase "/queue") = Some url0 ->
  searchParams url0 = [] ->
  fetchQueue_url apiBase params =
  Some (mkURL (url_location url0)
              (map query_pair (filter (fun e => passes_guard (snd e)) params))).
Proof.
  intros Hwf Hurl Hq. unfold fetchQueue_url. rewrite Hurl. f_equal.
  rewrite fold_add_param_fresh; [now rewrite Hq | assumption |].
  intros k _. now rewrite Hq.
Qed.

(** X8: [fetchQueue] leaves alone whatever the URL built from [apiBase]
    already carries: the part before the query is kept, a parameter whose
    name [params] does not set keeps its value, and a parameter [params]
    does set is overridden. *)
Theorem fetchQueue_keeps_other_parameters (apiBase : string) (params : Params) (url0 : URL) :
  well_formed_object params ->
  new_URL (apiUrl apiBase "/queue") = Some url0 ->
  exists url,
    fetchQueue_url apiBase params = Some url /\
    url_location url = url_location url0 /\
    forall name,
      searchParams_get (searchParams url) name =
      if passes_guard (object_get params name)
      then Some (String_of (object_get params name))
      else searchParams_get (searchParams url0) name.
Proof.
  intros Hwf Hurl. exists (fold_left add_param params url0).
  unfold fetchQueue_url. rewrite Hurl. split; [reflexivity|].
  split; [apply fold_add_param_location|].
  intros name. now apply fold_add_param_get.
Qed.

(** X9: a parameter [fetchQueue] sets occurs exactly once in the requested
    query, also when the URL built from [apiBase] carried that name several
    times; the number of occurrences of the other names is unchanged. *)
Theorem fetchQueue_parameters_unique (apiBase : string) (params : Params) (url0 : URL) :
  well_formed_object params ->
  new_URL (apiUrl apiBase "/queue") = Some url0 ->
  exists url,
    fetchQueue_url apiBase params = Some url /\
    forall name,
      occurrences (searchParams url) name =
      if passes_guard (object_get params name) then 1%nat
      else occurrences (searchParams url0) name.
Proof.
  intros Hwf Hurl. exists (fold_left add_param params url0).
  unfold fetchQueue_url. rewrite Hurl. split; [reflexivity|].
  intros name. now apply fold_add_param_occurrences.
Qed.

(** X10: when no value of [params] passes the guard (every one is
    [undefined], [null] or the empty string; in particular for the default
    [{}]), [fetchQueue] requests the URL built from [apiBase] as it is. *)
Theorem fetchQueue_without_filters (apiBase : string) (params : Params) :
  (forall k v, In (k, v) params -> passes_guard v = false) ->
  fetchQueue_url apiBase params = new_URL (apiUrl apiBase "/queue").
Proof.
  intros H. unfold fetchQueue_url.
  destruct (new_URL (apiUrl apiBase "/queue")) as [url0|]; [|reflexivity].
  now rewrite fold_add_param_rejected.
Qed.

(** ** [QueueView] on the whole query *)

(** X11: the query [QueueView] requests holds [component] when the
    component input is not empty, [state] when a state is selected and
    [min_score] when the score input parses to a number, in this order;
    [component] and [state] carry the inputs as they are, [min_score]
    carries [String(parseFloat(input))]; the query never holds [build_from]
    or [build_to]. *)
Theorem QueueView_exact_query
    (apiBase filterComponent filterState filterMinScore : string) (url0 : URL) :
  new_URL (apiUrl apiBase "/queue") = Some url0 ->
  searchParams url0 = [] ->
  exists query,
    QueueView_url apiBase filterComponent filterState filterMinScore =
      Some (mkURL (url_location url0) query) /\
    query =
      ((if truthy filterComponent then [("component", filterComponent)] else []) ++
       (if truthy filterState then [("state", filterState)] else []) ++
       (if isNaN (parseFloat filterMinScore) then []
        else [("min_score", Number_toString (parseFloat filterMinScore))]))%list /\
    searchParams_has query "build_from" = false /\
    searchParams_has query "build_to" = false.
Proof.
  intros Hurl Hq. eexists. split.
  - unfold QueueView_url, fetchQueue_url. rewrite Hurl. f_equal.
    rewrite fold_add_param_fresh;
      [rewrite Hq; reflexivity | apply QueueView_params_well_formed |].
    intros k _. now rewrite Hq.
  - unfold QueueView_params, truthy.
    destruct (String.eqb filterComponent "") eqn:Ec, (String.eqb filterState "") eqn:Es,
      (isNaN (parseFloat filterMinScore)) eqn:En; simpl;
      unfold passes_guard; simpl; rewrite ?Ec, ?Es; simpl; repeat split.
Qed.

(** ** The state of [QueueView] over time *)

Lemma QueueView_callback_loading (st : QueueState) (cb : Callback) :
  loading st = false -> loading (QueueView_callback st cb) = false.
Proof.
  intros H. destruct cb as [c data | c message | c]; simpl; destruct c; simpl;
    try assumption; reflexivity.
Qed.

Lemma QueueView_callback_error (st : QueueState) (cb : Callback) :
  writes_error cb = false -> error (QueueView_callback st cb) = error st.
Proof.
  destruct cb as [c data | c message | c]; simpl; destruct c; simpl;
    intros H; try reflexivity; discriminate H.
Qed.

Lemma QueueView_run_loading (st : QueueState) (cbs : list Callback) :
  loading st = false -> loading (QueueView_run st cbs) = false.
Proof.
  unfold QueueView_run. revert st.
  induction cbs as [|cb cbs IH]; intros st H; simpl; [exact H|].
  apply IH. now apply QueueView_callback_loading.
Qed.

(** X12: once [loading] is false it stays false: after the first request
    has settled, [QueueView] never shows the loading line again, whatever
    requests later filter changes start. *)
Theorem QueueView_loading_never_returns (st : QueueState) (cbs : list Callback) :
  loading st = false ->
  loading (QueueView_run st cbs) = false /\
  QueueView_render (QueueView_run st cbs) <> ShowLoading.
Proof.
  intros H. pose proof (QueueView_run_loading st cbs H) as Hl.
  split; [exact Hl|]. unfold QueueView_render. rewrite Hl.
  destruct (error (QueueView_run st cbs)) as [m|]; [destruct (truthy m)|]; discriminate.
Qed.

(** X13: nothing clears [error]: when an error is on display, every later
    run of callbacks without a live [catch] (requests that succeed, and
    cancelled ones) leaves the same error on display; the table with the
    new items is not shown. *)
Theorem QueueView_error_persists (st : QueueState) (cbs : list Callback) (message : string) :
  loading st = false ->
  error st = Some message ->
  truthy message = true ->
  Forall (fun cb => writes_error cb = false) cbs ->
  error (QueueView_run st cbs) = Some message /\
  QueueView_render (QueueView_run st cbs) = ShowError message.
Proof.
  intros Hl He Ht Hcbs.
  assert (He' : error (QueueView_run st cbs) = Some message).
  { unfold QueueView_run. revert st Hl He.
    induction Hcbs as [|cb cbs Hcb _ IH]; intros st Hl He; simpl; [exact He|].
    apply IH.
    - now apply QueueView_callback_loading.
    - now rewrite QueueView_callback_error. }
  split; [exact He'|]. unfold QueueView_render.
  now rewrite (QueueView_run_loading st cbs Hl), He', Ht.
Qed.

(** X14: callbacks that find [cancelled] set change nothing: a response
    that arrives after the filters changed, or after the view was left, is
    dropped. *)
Theorem QueueView_cancelled_ignored (st : QueueState) (cbs : list Callback) :
  Forall (fun cb => found_cancelled cb = true) cbs ->
  QueueView_run st cbs = st.
Proof.
  unfold QueueView_run. intros H. revert st.
  induction H as [|cb cbs Hcb _ IH]; intros st; simpl; [reflexivity|].
  rewrite IH. destruct cb as [c data | c message | c]; simpl in *; now rewrite Hcb.
Qed.

(** X15: what the view shows after a response that is not [ok], at any
    point of its life: the error line with the response's [statusText] when
    that text is not empty; with an empty [statusText] the error is the
    empty string, which is falsy, and the view is the table over the items
    it had, with no sign of the failure. *)
Theorem QueueView_failed_response (st : QueueState) (cbs : list Callback) (r : Response) :
  resp_ok r = false ->
  QueueView_render
    (QueueView_run st (cbs ++ chain_callbacks false (fetchQueue_settles r))) =
  if truthy (resp_statusText r) then ShowError (resp_statusText r)
  else ShowTable (items (QueueView_run st cbs))
                 (Nat.eqb (length (items (QueueView_run st cbs))) 0).
Proof.
  intros Hok. unfold QueueView_run, fetchQueue_settles. rewrite fold_left_app, Hok.
  simpl. unfold QueueView_render. simpl.
  destruct (truthy (resp_statusText r)); reflexivity.
Qed.

End Model.

(** * Part III: the model at work *)

Arguments mkReason {number}.
Arguments reason {number}.
Arguments score_contribution {number}.
Arguments evidence_refs {number}.
Arguments mkScoreResult {number}.
Arguments total_score {number}.
Arguments reasons {number}.
Arguments mkDiffHunk {number}.
Arguments mkEvidenceBundle {number}.
Arguments diff_hunks {number}.
Arguments log_to_binary_matches {number}.
Arguments JUndefined {number}.
Arguments JNull {number}.
Arguments JNumber {number}.
Arguments JString {number}.
Arguments JArray {number}.
Arguments JObject {number}.
Arguments get_prop {number}.
Arguments prop_names {number}.
Arguments has_prop {number}.
Arguments Reason_object {number}.
Arguments reason_item {number}.
Arguments rendered_explanation {number}.
Arguments PUndefined {number}.
Arguments PNull {number}.
Arguments PString {number}.
Arguments PNumber {number}.
Arguments object_get {number}.
Arguments well_formed_object {number}.
Arguments passes_guard {number}.

(** ** [apiUrl] on the bases the application is run with *)

Definition demo_origin : string := "http://localhost:3000".

Example apiUrl_default_base :
  apiUrl demo_origin "/api" "/queue" = "http://localhost:3000/api/queue".
Proof. reflexivity. Qed.

Example apiUrl_trailing_slash :
  apiUrl demo_origin "/api/" "/queue" = "http://localhost:3000/api/queue".
Proof. reflexivity. Qed.

Example apiUrl_two_trailing_slashes :
  apiUrl demo_origin "/api//" "/queue" = "http://localhost:3000/api//queue".
Proof. reflexivity. Qed.

Example apiUrl_absolute_base :
  apiUrl demo_origin "http://localhost:8000/" "/diff/1" = "http://localhost:8000/diff/1".
Proof. reflexivity. Qed.

Example apiUrl_relative_base :
  apiUrl demo_origin "api" "/queue" = "http://localhost:3000/api/queue".
Proof. reflexivity. Qed.

(** ** [fetchQueue] and [QueueView] with IEEE doubles as [number] *)

(** Stand-ins for the host functions, enough for the inputs below. *)
Definition demo_parseFloat (s : string) : float :=
  if String.eqb s "1.5" then 1.5%float else nan.

Definition demo_toString (x : float) : string :=
  if PrimFloat.is_nan x then "NaN" else if PrimFloat.eqb x 1.5 then "1.5" else "0".

Definition demo_new_URL (s : string) : option URL := Some (mkURL s []).

Definition demo_params : Params float :=
  [ ("component", PString "syslogd"); ("state", PString ""); ("min_score", PNumber 1.5%float) ].

Example fetchQueue_demo :
  fetchQueue_url float demo_origin demo_toString demo_new_URL "/api" demo_params =
  Some (mkURL "http://localhost:3000/api/queue"
              [("component", "syslogd"); ("min_score", "1.5")]).
Proof. reflexivity. Qed.

Example QueueView_demo_number :
  QueueView_url float demo_origin demo_toString demo_new_URL demo_parseFloat PrimFloat.is_nan
    "/api" "syslogd" "" "1.5" =
  Some (mkURL "http://localhost:3000/api/queue"
              [("component", "syslogd"); ("min_score", "1.5")]).
Proof. reflexivity. Qed.

Example QueueView_demo_not_a_number :
  QueueView_url float demo_origin demo_toString demo_new_URL demo_parseFloat PrimFloat.is_nan
    "/api" "" "pending" "" =
  Some (mkURL "http://localhost:3000/api/queue" [("state", "pending")]).
Proof. reflexivity. Qed.

(** A reading of [new URL(s)] that looks at the query: what follows the
    first "?" is split at "&", and each piece at its first "=".  On absolute
    URL strings without a fragment and without percent-encoding or "+" in
    the query, these are the pairs the host lists in [url.searchParams]. *)
Fixpoint split_first (c : ascii) (s : string) : string * option string :=
  match s with
  | EmptyString => (EmptyString, None)
  | String a rest =>
      if Ascii.eqb a c then (EmptyString, Some rest)
      else let (before, after) := split_first c rest in (String a before, after)
  end.

Fixpoint split_all (c : ascii) (s : string) : list string :=
  match s with
  | EmptyString => [EmptyString]
  | String a rest =>
      if Ascii.eqb a c then EmptyString :: split_all c rest
      else match split_all c rest with
           | [] => [String a EmptyString]
           | piece :: pieces => String a piece :: pieces
           end
  end.

Definition parse_query (q : string) : URLSearchParams :=
  map (fun piece => let (name, value) := split_first "=" piece in
                    (name, match value with Some v => v | None => "" end))
      (filter (fun piece => negb (String.eqb piece "")) (split_all "&" q)).

Definition demo_parse_URL (s : string) : option URL :=
  let (location, query) := split_first "?" s in
  Some (mkURL location (match query with Some q => parse_query q | None => [] end)).

Example demo_parse_URL_no_query :
  demo_parse_URL "http://localhost:3000/api/queue" =
  Some (mkURL "http://localhost:3000/api/queue" []).
Proof. reflexivity. Qed.



(** A base whose query repeats [state], and an object that sets it. *)
Definition demo_base_with_query : string :=
  "http://localhost:8000/api?state=accepted&state=denied&limit=10".

Definition demo_url_with_query : URL :=
  mkURL "http://localhost:8000/api"
        [("state", "accepted"); ("state", "denied"); ("limit", "10/queue")].

Definition demo_params_pending : Params float :=
  [ ("component", PString "syslogd"); ("state", PString "pending");
    ("min_score", PNumber 1.5%float) ].

Lemma demo_params_pending_well_formed : well_formed_object demo_params_pending.
Proof.
  unfold well_formed_object, demo_params_pending. simpl.
  repeat constructor; simpl; intros H;
    repeat (destruct H as [H|H]; [discriminate H|]); exact H.
Qed.

Example demo_parse_URL_with_query :
  demo_parse_URL (apiUrl demo_origin demo_base_with_query "/queue") =
  Some demo_url_with_query.
Proof. reflexivity. Qed.

(** [state] is overridden and left once, [limit] is kept, the new names are
    appended. *)
Example fetchQueue_demo_override :
  fetchQueue_url float demo_origin demo_toString demo_parse_URL demo_base_with_query
    demo_params_pending =
  Some (mkURL "http://localhost:8000/api"
              [("state", "pending"); ("limit", "10/queue");
               ("component", "syslogd"); ("min_score", "1.5")]).
Proof. reflexivity. Qed.


(** ** Reasons with exact rationals as [number] *)

Definition demo_ref : EvidenceRef := mkEvidenceRef "hunk" None "parser.c:13".

Definition demo_reason : Reason Qc :=
  mkReason "allocation size is not bounds-checked" (Q2Qc (3 # 2)) [demo_ref].

(** The record as the specification describes it, with the explanation
    under [text]. *)
Definition reason_with_text_field : JsValue Qc :=
  JObject [ ("text", JString "allocation size is not bounds-checked");
            ("score_contribution", JNumber (Q2Qc (3 # 2)));
            ("evidence_refs", JArray [EvidenceRef_object Qc demo_ref]) ].

(** C8 fails as stated: the explanation of a [Reason] is not under [text].
    The object of a [Reason] has the fields reason, score_contribution and
    evidence_refs and no field [text]; and from an object that does carry
    its explanation under [text], [DiffDetailView] reads [undefined] and
    renders no explanation. *)
Lemma Reason_text_field_counterexample :
  prop_names (Reason_object demo_reason) = ["reason"; "score_contribution"; "evidence_refs"] /\
  has_prop (Reason_object demo_reason) "text" = false /\
  get_prop (Reason_object demo_reason) "text" = JUndefined /\
  get_prop reason_with_text_field "reason" = JUndefined /\
  rendered_explanation (fun _ => "1.5") reason_with_text_field = Some "".
Proof. repeat split. Qed.

Example reason_item_demo :
  reason_item demo_reason = "allocation size is not bounds-checked — refs: parser.c:13".
Proof. reflexivity. Qed.

(** A [Reason] that cites nothing. *)
Definition reason_without_evidence : Reason Qc :=
  mkReason "unexplained" (Q2Qc 1) [].

(** The client's [Reason] type admits an empty [evidence_refs] list: a
    [ScoreResult] can hold such a reason, and [DiffDetailView] renders it
    with an empty list of refs. *)
Example reason_without_evidence_rendered :
  evidence_refs reason_without_evidence = [] /\
  reasons (mkScoreResult (Q2Qc 1) [reason_without_evidence] "1") = [reason_without_evidence] /\
  reason_item reason_without_evidence = "unexplained — refs: ".
Proof. repeat split. Qed.

(** ** Template extraction on a small stream *)

Definition demo_stream : list LogLine :=
  [ mkLogLine "com.apple.syslogd" "parse" "parse failed";
    mkLogLine "com.apple.syslogd" "io" "read 12 bytes";
    mkLogLine "com.apple.syslogd" "parse" "parse failed" ].

Example extract_templates_demo :
  map format_string
      (extract_templates (fun m => m) (fun s c f => s ++ "/" ++ c ++ "/" ++ f) demo_stream)
  = ["parse failed"; "read 12 bytes"].
Proof. reflexivity. Qed.

(** ** Correlation on a small string table *)

Definition demo_template : LogTemplate :=
  mkLogTemplate "com.apple.syslogd" "parse" "parse failed" "tmpl-1".

Example correlate_demo_match :
  correlate (fun _ => []) [demo_template] ["syslogd"; "parse failed"; "/var/log"] =
  [("tmpl-1", "parse failed")].
Proof. reflexivity. Qed.

Example correlate_demo_unrelated :
  correlate (fun _ => []) [demo_template] ["syslogd"; "/var/log"] = [].
Proof. reflexivity. Qed.

(** ** Further properties at work *)

Arguments mkQueueState {number}.
Arguments mkQueueItem {number}.
Arguments items {number}.
Arguments loading {number}.
Arguments error {number}.
Arguments OnThen {number}.
Arguments OnCatch {number}.
Arguments OnFinally {number}.
Arguments QueueView_run {number}.
Arguments QueueView_render {number}.
Arguments ShowLoading {number}.
Arguments ShowError {number}.
Arguments ShowTable {number}.
Arguments found_cancelled {number}.
Arguments writes_error {number}.

Lemma api_has_no_trailing_slash : ~ ends_with_slash "/api".
Proof.
  intros [t Ht]. destruct t as [|a [|b [|c [|d [|e t]]]]]; simpl in Ht; discriminate Ht.
Qed.

Lemma demo_params_well_formed : well_formed_object demo_params.
Proof.
  unfold well_formed_object, demo_params. simpl.
  repeat constructor; simpl; intros H;
    repeat (destruct H as [H|H]; [discriminate H|]); exact H.
Qed.

Lemma apiUrl_rooted_path_witness :
  has_prefix "/" "/queue" /\
  apiUrl demo_origin "api/" "/queue" = api_prefix demo_origin "api/" ++ "/queue".
Proof.
  assert (H : has_prefix "/" "/queue") by (exists "queue"; reflexivity).
  split; [exact H | exact (apiUrl_rooted_path demo_origin "api/" "/queue" H)].
Defined.

Lemma apiUrl_trailing_slash_irrelevant_witness :
  ~ ends_with_slash "/api" /\
  apiUrl demo_origin ("/api" ++ "/") "/queue" = apiUrl demo_origin "/api" "/queue".
Proof.
  split; [exact api_has_no_trailing_slash|].
  exact (apiUrl_trailing_slash_irrelevant demo_origin "/api" "/queue"
           api_has_no_trailing_slash).
Defined.

Lemma apiUrl_starts_with_http_witness :
  has_prefix "http" demo_origin /\
  has_prefix "http" (apiUrl demo_origin "api" "/diff/1").
Proof.
  assert (H : has_prefix "http" demo_origin) by (exists "://localhost:3000"; reflexivity).
  split; [exact H | exact (apiUrl_starts_with_http demo_origin "api" "/diff/1" H)].
Defined.

Lemma apiUrl_http_base_witness :
  has_prefix "http" "https://oss-sensor.example/api/" /\
  apiUrl demo_origin "https://oss-sensor.example/api/" "/queue" =
    replace_trailing_slash "https://oss-sensor.example/api/" ++ "/queue".
Proof.
  assert (H : has_prefix "http" "https://oss-sensor.example/api/")
    by (exists "s://oss-sensor.example/api/"; reflexivity).
  split; [exact H|].
  exact (apiUrl_http_base demo_origin "https://oss-sensor.example/api/" "/queue" H).
Defined.

Lemma fetchQueue_exact_query_witness :
  well_formed_object demo_params /\
  fetchQueue_url float demo_origin demo_toString demo_new_URL "/api" demo_params =
  Some (mkURL "http://localhost:3000/api/queue"
              (map (query_pair float demo_toString)
                   (filter (fun e => passes_guard (snd e)) demo_params))).
Proof.
  split; [exact demo_params_well_formed|].
  exact (fetchQueue_exact_query float demo_origin demo_toString demo_new_URL "/api"
           demo_params (mkURL "http://localhost:3000/api/queue" [])
           demo_params_well_formed eq_refl eq_refl).
Defined.

Lemma fetchQueue_keeps_other_parameters_witness :
  well_formed_object demo_params_pending /\
  exists url,
    fetchQueue_url float demo_origin demo_toString demo_parse_URL demo_base_with_query
      demo_params_pending = Some url /\
    url_location url = "http://localhost:8000/api" /\
    forall name,
      searchParams_get (searchParams url) name =
      if passes_guard (object_get demo_params_pending name)
      then Some (String_of float demo_toString (object_get demo_params_pending name))
      else searchParams_get
             [("state", "accepted"); ("state", "denied"); ("limit", "10/queue")] name.
Proof.
  split; [exact demo_params_pending_well_formed|].
  exact (fetchQueue_keeps_other_parameters float demo_origin demo_toString
           demo_parse_URL demo_base_with_query demo_params_pending demo_url_with_query
           demo_params_pending_well_formed eq_refl).
Defined.

Lemma fetchQueue_parameters_unique_witness :
  well_formed_object demo_params_pending /\
  occurrences (searchParams demo_url_with_query) "state" = 2%nat /\
  exists url,
    fetchQueue_url float demo_origin demo_toString demo_parse_URL demo_base_with_query
      demo_params_pending = Some url /\
    forall name,
      occurrences (searchParams url) name =
      if passes_guard (object_get demo_params_pending name) then 1%nat
      else occurrences
             [("state", "accepted"); ("state", "denied"); ("limit", "10/queue")] name.
Proof.
  split; [exact demo_params_pending_well_formed|]. split; [reflexivity|].
  exact (fetchQueue_parameters_unique float demo_origin demo_toString
           demo_parse_URL demo_base_with_query demo_params_pending demo_url_with_query
           demo_params_pending_well_formed eq_refl).
Defined.

Definition demo_empty_filters : Params float :=
  [ ("component", PString ""); ("state", PUndefined); ("min_score", PNull) ].

Lemma fetchQueue_without_filters_witness :
  (forall k v, In (k, v) demo_empty_filters -> passes_guard v = false) /\
  fetchQueue_url float demo_origin demo_toString demo_new_URL "/api" demo_empty_filters =
  demo_new_URL (apiUrl demo_origin "/api" "/queue").
Proof.
  assert (H : forall k v, In (k, v) demo_empty_filters -> passes_guard v = false).
  { intros k v Hin. simpl in Hin.
    destruct Hin as [E | [E | [E | []]]]; injection E as _ <-; reflexivity. }
  split; [exact H|].
  exact (fetchQueue_without_filters float demo_origin demo_toString demo_new_URL "/api"
           demo_empty_filters H).
Defined.

Lemma QueueView_exact_query_witness :
  exists query,
    QueueView_url float demo_origin demo_toString demo_new_URL demo_parseFloat
      PrimFloat.is_nan "/api" "syslogd" "" "1.5" =
      Some (mkURL "http://localhost:3000/api/queue" query) /\
    query = [("component", "syslogd"); ("min_score", "1.5")] /\
    searchParams_has query "build_from" = false /\
    searchParams_has query "build_to" = false.
Proof.
  exact (QueueView_exact_query float demo_origin demo_toString demo_new_URL demo_parseFloat
           PrimFloat.is_nan "/api" "syslogd" "" "1.5"
           (mkURL "http://localhost:3000/api/queue" []) eq_refl eq_refl).
Defined.

(** The view after a first request that failed, and the callbacks of a later
    request that succeeds. *)
Definition demo_item : QueueItem Qc :=
  mkQueueItem "1" "1" "B1" "B2" "syslogd" (Q2Qc (3 # 2)) "pending" "" None.

Definition demo_failed_state : QueueState Qc := mkQueueState [] false (Some "Not Found").

Definition demo_success : list (Callback Qc) := [OnThen false [demo_item]; OnFinally false].

Definition demo_late : list (Callback Qc) := [OnThen true [demo_item]; OnFinally true].

Lemma QueueView_loading_never_returns_witness :
  loading demo_failed_state = false /\
  loading (QueueView_run demo_failed_state demo_success) = false /\
  QueueView_render (QueueView_run demo_failed_state demo_success) <> ShowLoading.
Proof.
  split; [reflexivity|].
  exact (QueueView_loading_never_returns Qc demo_failed_state demo_success eq_refl).
Defined.

Lemma QueueView_error_persists_witness :
  Forall (fun cb => writes_error cb = false) demo_success /\
  error (QueueView_run demo_failed_state demo_success) = Some "Not Found" /\
  QueueView_render (QueueView_run demo_failed_state demo_success) = ShowError "Not Found".
Proof.
  assert (H : Forall (fun cb : Callback Qc => writes_error cb = false) demo_success)
    by (repeat constructor).
  split; [exact H|].
  exact (QueueView_error_persists Qc demo_failed_state demo_success "Not Found"
           eq_refl eq_refl eq_refl H).
Defined.

Lemma QueueView_cancelled_ignored_witness :
  Forall (fun cb => found_cancelled cb = true) demo_late /\
  QueueView_run demo_failed_state demo_late = demo_failed_state.
Proof.
  assert (H : Forall (fun cb : Callback Qc => found_cancelled cb = true) demo_late)
    by (repeat constructor).
  split; [exact H|].
  exact (QueueView_cancelled_ignored Qc demo_failed_state demo_late H).
Defined.

Definition demo_not_found : Response Qc := mkResponse Qc false "Not Found" (inr []).

Lemma QueueView_failed_response_witness :
  resp_ok Qc demo_not_found = false /\
  QueueView_render
    (QueueView_run (QueueView_initial Qc)
       ([] ++ chain_callbacks Qc false (fetchQueue_settles Qc demo_not_found))) =
  ShowError "Not Found".
Proof.
  split; [reflexivity|].
  exact (QueueView_failed_response Qc (QueueView_initial Qc) [] demo_not_found eq_refl).
Defined.
